(** * Tags of a mail namespace: inbox/models/tag.py

    A shallow embedding of the [Tag] model class: its class-level name
    lists, the two mutability properties, the name availability check,
    the provisioning of the canonical tags, the two unique constraints
    of the table, the [after_update] hook that cascades a soft
    delete to the [tagitems] table, and the [tags] collection that the
    [namespace] relationship gives every namespace.

    Conventions of the embedding.
    - A Python string is the [string] of the bytes of its UTF-8
      encoding, so that equality, membership in a list and
      [startswith] are those of the text.  [str.lower] belongs to
      Python, not to this file: the functions that call it take it as
      their first argument [lower], and where a statement needs to know
      what it does, it assumes only that it folds ASCII text as
      [ascii_fold] does ([lower_on_ascii]).
    - Integer columns are [Z]; the nullable timestamp [deleted_at] is an
      [option Z] ([None] is SQL NULL, that is, an active row).
    - A session is the pair of tables it works on.  The query class of
      the session is not part of this file; [Session.query] models it
      from the specification: a query yields, in table order, the
      active rows that satisfy the predicates of its [filter] clause.
      Rows added to the session are seen by its later queries
      (autoflush).  The unique constraints are those of the table and
      range over all its rows.
    - The Python [set] of missing canonical names is a [gset string];
      the loop over it visits [elements] of the set. *)

From stdpp Require Import base decidable list strings gmap.
From Stdlib Require Import ZArith Ascii.

#[local] Open Scope Z_scope.
#[local] Open Scope string_scope.
#[local] Open Scope list_scope.

(** ** Strings *)

(** [str.lower] on one character: 'A'..'Z' (65..90) move up by 32. *)
Definition ascii_lower (c : ascii) : ascii :=
  let n := N_of_ascii c in
  if ((65 <=? n) && (n <=? 90))%N then ascii_of_N (n + 32) else c.

(** Lowercasing of ASCII text. *)
Fixpoint ascii_fold (s : string) : string :=
  match s with
  | EmptyString => EmptyString
  | String c s' => String (ascii_lower c) (ascii_fold s')
  end.

(** Text made of ASCII characters only (every byte below 128). *)
Fixpoint is_ascii (s : string) : bool :=
  match s with
  | EmptyString => true
  | String c s' => (N_of_ascii c <? 128)%N && is_ascii s'
  end.

(** What the statements may assume of Python's [str.lower]: on ASCII
    text it is [ascii_fold].  Nothing is assumed of it elsewhere. *)
Definition lower_on_ascii (lower : string → string) : Prop :=
  ∀ s, is_ascii s = true → lower s = ascii_fold s.

(** [s.startswith(p)] *)
Definition startswith (s p : string) : bool := String.prefix p s.

(** ** The namespace, as far as the tag model reads it *)

Module Namespace.
Record t := mk { id : Z }.
End Namespace.

(** ** The association table [tagitems] *)

Module TagItem.
Record t := mk {
  tag_id : Z;
  thread_id : Z;
  deleted_at : option Z
}.

#[global] Instance eq_dec : EqDecision t.
Proof. solve_decision. Defined.
End TagItem.

(** ** The [Tag] class *)

Module Tag.

Record t := mk {
  id : Z;
  public_id : string;
  name : string;
  namespace_id : Z;
  user_created : bool;
  deleted_at : option Z
}.

#[global] Instance eq_dec : EqDecision t.
Proof. solve_decision. Defined.

Definition RESERVED_PROVIDER_NAMES : list string :=
  ["gmail"; "outlook"; "yahoo"; "exchange"; "inbox"; "icloud"; "aol"].

Definition CANONICAL_TAG_NAMES : list string :=
  ["inbox"; "archive"; "drafts"; "sending"; "sent"; "spam"; "starred";
   "trash"; "unread"; "unseen"; "attachment"].

Definition RESERVED_TAG_NAMES : list string :=
  ["all"; "archive"; "drafts"; "send"; "replied"; "file"; "attachment";
   "unseen"].

(** Tags that are allowed to be both added and removed via the API. *)
Definition USER_MUTABLE_TAGS : list string :=
  ["unread"; "starred"; "spam"; "trash"; "inbox"; "archive"].

(** The 'unseen' tag can only be removed. *)
Definition user_removable (self : t) : bool :=
  user_created self
  || bool_decide (public_id self ∈ USER_MUTABLE_TAGS)
  || bool_decide (public_id self = "unseen").

Definition user_addable (self : t) : bool :=
  user_created self || bool_decide (public_id self ∈ USER_MUTABLE_TAGS).

(** [Tag(namespace=..., public_id=..., name=...)]: a transient object.
    [user_created] takes the server default (false), [deleted_at] is
    NULL, and the primary key is assigned by the store on insert; the
    0 here is only the placeholder that [Session.add] overwrites. *)
Definition init (namespace : Namespace.t) (public_id name : string) : t :=
  {| id := 0; public_id := public_id; name := name;
     namespace_id := Namespace.id namespace;
     user_created := false; deleted_at := None |}.

End Tag.

(** ** The session: the tables a [db_session] reads and writes *)

Module Session.

Record t := mk {
  tags : list Tag.t;
  tagitems : list TagItem.t
}.

(** The autoincrement primary key of the next inserted tag. *)
Definition next_id (rows : list Tag.t) : Z :=
  1 + foldr Z.max 0 (Tag.id <$> rows).

Definition with_id (i : Z) (x : Tag.t) : Tag.t :=
  {| Tag.id := i; Tag.public_id := Tag.public_id x; Tag.name := Tag.name x;
     Tag.namespace_id := Tag.namespace_id x;
     Tag.user_created := Tag.user_created x;
     Tag.deleted_at := Tag.deleted_at x |}.

(** Modelled from the spec: the query class of the session behind
    [db_session], which is not part of this file.  Following sections
    4.1 (step 3: "an active (non-deleted) Tag") and 4.4 ("query all
    active tags in the namespace"), [db_session.query(Tag).filter(P)
    .all()] yields the rows of the table that are active
    ([deleted_at] NULL) and satisfy [P], in table order. *)
Definition query (P : Tag.t → Prop) `{∀ x, Decision (P x)} (s : t) :
    list Tag.t :=
  filter (λ x, Tag.deleted_at x = None ∧ P x) (tags s).

(** [db_session.add(tag)]: an INSERT.  No [after_update] event fires
    for an insert, so the association table is not touched. *)
Definition add (tag : Tag.t) (s : t) : t :=
  {| tags := tags s ++ [with_id (next_id (tags s)) tag];
     tagitems := tagitems s |}.

End Session.

(** ** Name availability *)

(** [lower] stands for Python's [str.lower] (see the conventions). *)
Definition name_available (lower : string → string) (name : string)
    (namespace_id : Z) (db_session : Session.t) : bool :=
  if existsb (λ provider, startswith (lower name) provider)
       Tag.RESERVED_PROVIDER_NAMES
  then false
  else if bool_decide (name ∈ Tag.RESERVED_TAG_NAMES)
          || bool_decide (name ∈ Tag.CANONICAL_TAG_NAMES)
  then false
  else if bool_decide
            (name ∈ Tag.name <$>
               Session.query (λ x, Tag.namespace_id x = namespace_id)
                 db_session)
  then false
  else true.

(** ** Canonical tags *)

(** If they don't already exist yet, create tags that should always
    exist. *)
Definition create_canonical_tags (namespace : Namespace.t)
    (db_session : Session.t) : Session.t :=
  let existing_canonical_tags :=
    Session.query (λ x, Tag.namespace_id x = Namespace.id namespace
                        ∧ Tag.public_id x ∈ Tag.CANONICAL_TAG_NAMES)
      db_session in
  let missing_canonical_names : gset string :=
    list_to_set Tag.CANONICAL_TAG_NAMES
    ∖ list_to_set (Tag.public_id <$> existing_canonical_tags) in
  foldl (λ s canonical_name,
           Session.add (Tag.init namespace canonical_name canonical_name) s)
    db_session (elements missing_canonical_names).

(** ** The unique constraints of the table *)

(** [UniqueConstraint(a, b)]: no two rows of the table, whatever their
    [deleted_at], agree on both columns. *)
Definition UniqueConstraint {A B : Type} (a : Tag.t → A) (b : Tag.t → B)
    (rows : list Tag.t) : Prop :=
  NoDup ((λ x, (a x, b x)) <$> rows).

Definition table_args (rows : list Tag.t) : Prop :=
  UniqueConstraint Tag.namespace_id Tag.name rows
  ∧ UniqueConstraint Tag.namespace_id Tag.public_id rows.

#[global] Instance table_args_dec rows : Decision (table_args rows).
Proof. unfold table_args, UniqueConstraint. apply _. Defined.

(** The store accepts a flush only when both constraints hold; [None]
    stands for the IntegrityError it raises otherwise. *)
Definition flush (s : Session.t) : option Session.t :=
  if decide (table_args (Session.tags s)) then Some s else None.

(** ** The soft-delete cascade *)

Definition fk_column (fk_name : string) (r : TagItem.t) : option Z :=
  if decide (fk_name = "tag_id") then Some (TagItem.tag_id r)
  else if decide (fk_name = "thread_id") then Some (TagItem.thread_id r)
  else None.

Definition pk_attribute (pk_name : string) (x : Tag.t) : option Z :=
  if decide (pk_name = "id") then Some (Tag.id x)
  else if decide (pk_name = "namespace_id") then Some (Tag.namespace_id x)
  else None.

Definition mark_deleted (at_ : Z) (r : TagItem.t) : TagItem.t :=
  {| TagItem.tag_id := TagItem.tag_id r;
     TagItem.thread_id := TagItem.thread_id r;
     TagItem.deleted_at := Some at_ |}.

(** Modelled from the spec: [propagate_soft_delete] of
    inbox.sqlalchemy_ext.util, which the hook calls and which is not part
    of this file.  Following section 4.5: only when the target went from
    active to soft-deleted in this update ([committed] is the value of
    its [deleted_at] loaded from the store), every row of the named
    table whose foreign key is the target's key and whose [deleted_at]
    is not yet set gets the target's deletion time; otherwise, and on
    every other row, nothing changes. *)
Definition propagate_soft_delete (connection : Session.t)
    (committed : option Z) (target : Tag.t)
    (table_name fk_name pk_name : string) : Session.t :=
  match committed, Tag.deleted_at target, pk_attribute pk_name target with
  | None, Some at_, Some key =>
      if decide (table_name = "tagitems") then
        {| Session.tags := Session.tags connection;
           Session.tagitems :=
             (λ r, if decide (fk_column fk_name r = Some key
                              ∧ TagItem.deleted_at r = None)
                   then mark_deleted at_ r else r)
               <$> Session.tagitems connection |}
      else connection
  | _, _, _ => connection
  end.

(** Hook to cascade delete the threads as well. *)
Definition _after_tag_update (connection : Session.t)
    (committed : option Z) (target : Tag.t) : Session.t :=
  propagate_soft_delete connection committed target "tagitems" "tag_id" "id".

(** ** Mutations of a loaded tag *)

(** An UPDATE of the row [old] to [new] (same primary key), followed by
    the [after_update] event with the new state as target. *)
Definition update (old new : Tag.t) (s : Session.t) : Session.t :=
  _after_tag_update
    {| Session.tags :=
         (λ x, if decide (Tag.id x = Tag.id old) then new else x)
           <$> Session.tags s;
       Session.tagitems := Session.tagitems s |}
    (Tag.deleted_at old) new.

Definition get (i : Z) (s : Session.t) : option Tag.t :=
  snd <$> list_find (λ x, Tag.id x = i) (Session.tags s).

Definition set_name (new_name : string) (x : Tag.t) : Tag.t :=
  {| Tag.id := Tag.id x; Tag.public_id := Tag.public_id x;
     Tag.name := new_name; Tag.namespace_id := Tag.namespace_id x;
     Tag.user_created := Tag.user_created x;
     Tag.deleted_at := Tag.deleted_at x |}.

Definition set_deleted_at (now : Z) (x : Tag.t) : Tag.t :=
  {| Tag.id := Tag.id x; Tag.public_id := Tag.public_id x;
     Tag.name := Tag.name x; Tag.namespace_id := Tag.namespace_id x;
     Tag.user_created := Tag.user_created x;
     Tag.deleted_at := Some now |}.

(** The mutations a caller performs on the model. *)
Inductive Op :=
  | OpCreate (namespace : Namespace.t) (public_id name : string)
      (user_created : bool)
  | OpRename (tag : Z) (new_name : string)
  | OpSoftDelete (tag : Z) (now : Z)
  | OpCanonical (namespace : Namespace.t).

Definition create (namespace : Namespace.t) (public_id name : string)
    (user_created : bool) (s : Session.t) : Session.t :=
  Session.add
    {| Tag.id := 0; Tag.public_id := public_id; Tag.name := name;
       Tag.namespace_id := Namespace.id namespace;
       Tag.user_created := user_created; Tag.deleted_at := None |} s.

Definition rename (tag : Z) (new_name : string) (s : Session.t) : Session.t :=
  match get tag s with
  | Some old => update old (set_name new_name old) s
  | None => s
  end.

Definition soft_delete (tag : Z) (now : Z) (s : Session.t) : Session.t :=
  match get tag s with
  | Some old => update old (set_deleted_at now old) s
  | None => s
  end.

Definition apply_op (op : Op) (s : Session.t) : Session.t :=
  match op with
  | OpCreate ns pid nm uc => create ns pid nm uc s
  | OpRename i nm => rename i nm s
  | OpSoftDelete i now => soft_delete i now s
  | OpCanonical ns => create_canonical_tags ns s
  end.

(** One committed step: the mutation, then the flush that the store
    accepts or rejects. *)
Definition run (op : Op) (s : Session.t) : option Session.t :=
  flush (apply_op op s).

Definition empty_session : Session.t :=
  {| Session.tags := []; Session.tagitems := [] |}.

(** The sessions that committed steps lead to from the empty store. *)
Inductive reachable : Session.t → Prop :=
  | reachable_empty : reachable empty_session
  | reachable_step (op : Op) (s s' : Session.t) :
      reachable s → run op s = Some s' → reachable s'.

(** ** Predicates of the statements *)

Definition active (x : Tag.t) : Prop := Tag.deleted_at x = None.

(** Rows of a namespace carrying a given public id. *)
Definition rows_with_public_id (namespace_id : Z) (public_id : string)
    (rows : list Tag.t) : list Tag.t :=
  filter (λ x, Tag.namespace_id x = namespace_id
               ∧ Tag.public_id x = public_id) rows.

Definition active_with_public_id (namespace_id : Z) (public_id : string)
    (rows : list Tag.t) : list Tag.t :=
  filter active (rows_with_public_id namespace_id public_id rows).

(** No two distinct active rows of one namespace share a name or a
    public id. *)
Definition active_unique (rows : list Tag.t) : Prop :=
  ∀ (i j : nat) (x y : Tag.t),
    rows !! i = Some x → rows !! j = Some y → i ≠ j →
    active x → active y → Tag.namespace_id x = Tag.namespace_id y →
    Tag.name x ≠ Tag.name y ∧ Tag.public_id x ≠ Tag.public_id y.

(** The first step of [name_available]: some reserved provider name is
    a prefix of the lowercased name. *)
Definition reserved_prefix (lower : string → string) (name : string) :
    bool :=
  existsb (λ provider, startswith (lower name) provider)
    Tag.RESERVED_PROVIDER_NAMES.

(** What [create_canonical_tags] inserts for the canonical name [c]. *)
Definition canonical_row (namespace : Namespace.t) (c : string)
    (x : Tag.t) : Prop :=
  Tag.public_id x = c ∧ Tag.name x = c
  ∧ Tag.namespace_id x = Namespace.id namespace
  ∧ Tag.deleted_at x = None ∧ Tag.user_created x = false.

(** The set the loop of [create_canonical_tags] runs over. *)
Definition missing_canonical_names (namespace : Namespace.t)
    (db_session : Session.t) : gset string :=
  list_to_set Tag.CANONICAL_TAG_NAMES
  ∖ list_to_set
      (Tag.public_id <$>
         Session.query (λ x, Tag.namespace_id x = Namespace.id namespace
                             ∧ Tag.public_id x ∈ Tag.CANONICAL_TAG_NAMES)
           db_session).

(** The loop itself, over a given sequence of names. *)
Definition add_canonical_tags (namespace : Namespace.t)
    (names : list string) (db_session : Session.t) : Session.t :=
  foldl (λ s canonical_name,
           Session.add (Tag.init namespace canonical_name canonical_name) s)
    db_session names.

Definition ns1 : Namespace.t := {| Namespace.id := 1 |}.

(** What the cascade makes of one association row of the deleted tag. *)
Definition cascaded (now : Z) (r : TagItem.t) : TagItem.t :=
  match TagItem.deleted_at r with
  | None => mark_deleted now r
  | Some _ => r
  end.

(** Concrete rows used by the examples below. *)
Definition unseen_tag : Tag.t :=
  {| Tag.id := 10; Tag.public_id := "unseen"; Tag.name := "unseen";
     Tag.namespace_id := 1; Tag.user_created := false;
     Tag.deleted_at := None |}.

Definition starred_tag : Tag.t :=
  {| Tag.id := 7; Tag.public_id := "starred"; Tag.name := "starred";
     Tag.namespace_id := 1; Tag.user_created := false;
     Tag.deleted_at := None |}.

(** A user tag named "work" of namespace 1 that was soft-deleted. *)
Definition deleted_work_tag : Tag.t :=
  {| Tag.id := 1; Tag.public_id := "k3x9"; Tag.name := "work";
     Tag.namespace_id := 1; Tag.user_created := true;
     Tag.deleted_at := Some 1400000000 |}.

Definition session_deleted_work : Session.t :=
  {| Session.tags := [deleted_work_tag]; Session.tagitems := [] |}.

(** The canonical "inbox" tag of namespace 1, soft-deleted. *)
Definition deleted_inbox_tag : Tag.t :=
  {| Tag.id := 1; Tag.public_id := "inbox"; Tag.name := "inbox";
     Tag.namespace_id := 1; Tag.user_created := false;
     Tag.deleted_at := Some 1400000000 |}.

Definition session_deleted_inbox : Session.t :=
  {| Session.tags := [deleted_inbox_tag]; Session.tagitems := [] |}.

(** Sessions for the cascade examples: two tags, the first with one
    active and one already deleted association, the second with one
    active association. *)
Definition session_with_items : Session.t :=
  {| Session.tags := [starred_tag; unseen_tag];
     Session.tagitems :=
       [ {| TagItem.tag_id := 7; TagItem.thread_id := 100;
            TagItem.deleted_at := None |};
         {| TagItem.tag_id := 7; TagItem.thread_id := 101;
            TagItem.deleted_at := Some 1300000000 |};
         {| TagItem.tag_id := 10; TagItem.thread_id := 100;
            TagItem.deleted_at := None |} ] |}.

(** ** Further definitions: the backref and the example stores *)

(** The names the duplicate step of [name_available] compares with: the
    result of its query. *)
Definition namespace_names (namespace_id : Z) (s : Session.t) : list string :=
  Tag.name <$>
    Session.query (λ x, Tag.namespace_id x = namespace_id) s.

(** [namespace.tags], the backref declared with [Tag.namespace]: the
    rows joined by [Tag.namespace_id == Namespace.id] and
    [Tag.deleted_at.is_(None)], collected in a dict keyed by
    [public_id] ([attribute_mapped_collection]); a row loaded later
    replaces an earlier one under the same key. *)
Definition Namespace_tags (namespace : Namespace.t) (s : Session.t) :
    gmap string Tag.t :=
  foldl (λ m x, <[Tag.public_id x := x]> m) ∅
    (filter (λ x, Tag.namespace_id x = Namespace.id namespace
                  ∧ Tag.deleted_at x = None)
       (Session.tags s)).

(** Soft deletion of the rows selected by [P], on the table alone. *)
Definition soft_delete_where (P : Tag.t → Prop) `{∀ x, Decision (P x)}
    (now : Z) (rows : list Tag.t) : list Tag.t :=
  (λ x, if decide (P x) then set_deleted_at now x else x) <$> rows.

Definition ns2 : Namespace.t := {| Namespace.id := 2 |}.

(** An active user tag named "work" of namespace 2. *)
Definition work_tag_ns2 : Tag.t :=
  {| Tag.id := 2; Tag.public_id := "p7qd"; Tag.name := "work";
     Tag.namespace_id := 2; Tag.user_created := true;
     Tag.deleted_at := None |}.

(** A user tag of namespace 1 that took the name "spam" before the
    canonical tags were provisioned. *)
Definition user_spam_tag : Tag.t :=
  {| Tag.id := 1; Tag.public_id := "k3x9"; Tag.name := "spam";
     Tag.namespace_id := 1; Tag.user_created := true;
     Tag.deleted_at := None |}.

Definition session_user_spam : Session.t :=
  {| Session.tags := [user_spam_tag]; Session.tagitems := [] |}.

Definition session_two_namespaces : Session.t :=
  {| Session.tags := [deleted_work_tag; work_tag_ns2];
     Session.tagitems :=
       [ {| TagItem.tag_id := 2; TagItem.thread_id := 100;
            TagItem.deleted_at := None |} ] |}.

(** * Properties *)

(** Closes a decidable goal without variables by evaluating its
    decision procedure. *)
Ltac decide_closed := apply (bool_decide_unpack _); vm_compute; exact I.

(** ** Mutability policy *)

Section Mutability.
Variable self : Tag.t.

Lemma user_addable_spec :
  Tag.user_addable self = true
  ↔ Tag.user_created self = true
    ∨ Tag.public_id self ∈ Tag.USER_MUTABLE_TAGS.
Proof.
  unfold Tag.user_addable.
  rewrite orb_true_iff, bool_decide_eq_true. reflexivity.
Qed.

Lemma user_removable_spec :
  Tag.user_removable self = true
  ↔ Tag.user_created self = true
    ∨ Tag.public_id self ∈ Tag.USER_MUTABLE_TAGS
    ∨ Tag.public_id self = "unseen".
Proof.
  unfold Tag.user_removable.
  rewrite !orb_true_iff, !bool_decide_eq_true. tauto.
Qed.
End Mutability.

(** C8: a tag that is not user-created and whose public id is "unseen"
    is removable by the user and is not addable by the user. *)
Theorem unseen_removable_not_addable (self : Tag.t)
    (Hcreated : Tag.user_created self = false)
    (Hunseen : Tag.public_id self = "unseen") :
  Tag.user_removable self = true ∧ Tag.user_addable self = false.
Proof.
  split.
  - apply user_removable_spec. auto.
  - unfold Tag.user_addable. rewrite Hcreated, Hunseen. reflexivity.
Qed.

Lemma unseen_removable_not_addable_witness :
  Tag.user_removable unseen_tag = true ∧ Tag.user_addable unseen_tag = false.
Proof.
  apply (unseen_removable_not_addable unseen_tag); reflexivity.
Defined.

(** C10: every tag the user may add is a tag the user may remove. *)
Theorem user_addable_implies_user_removable (self : Tag.t)
    (Haddable : Tag.user_addable self = true) :
  Tag.user_removable self = true.
Proof.
  apply user_removable_spec.
  apply user_addable_spec in Haddable. tauto.
Qed.

Lemma user_addable_implies_user_removable_witness :
  Tag.user_removable starred_tag = true.
Proof.
  apply (user_addable_implies_user_removable starred_tag). reflexivity.
Defined.

(** ** Name availability *)

Lemma ascii_fold_gmailLabel (lower : string → string) :
  lower_on_ascii lower → lower "gmailLabel" = "gmaillabel".
Proof. intros Hlower. by rewrite Hlower. Qed.

Lemma elem_of_query (P : Tag.t → Prop) `{∀ x, Decision (P x)}
    (s : Session.t) x :
  x ∈ Session.query P s
  ↔ x ∈ Session.tags s ∧ active x ∧ P x.
Proof.
  unfold Session.query, active. rewrite list_elem_of_filter. tauto.
Qed.

Section NameAvailable.
Variable lower : string → string.
Variables (name : string) (namespace_id : Z) (db_session : Session.t).

Lemma reserved_prefix_true :
  reserved_prefix lower name = true
  ↔ ∃ provider, provider ∈ Tag.RESERVED_PROVIDER_NAMES
                ∧ startswith (lower name) provider = true.
Proof.
  unfold reserved_prefix. rewrite existsb_exists.
  split; intros (p & Hin & Hp); exists p; split; auto;
    by apply list_elem_of_In.
Qed.

(** The three steps of the check, one conjunct each. *)
Lemma name_available_true :
  name_available lower name namespace_id db_session = true
  ↔ reserved_prefix lower name = false
    ∧ (name ∉ Tag.RESERVED_TAG_NAMES)
    ∧ (name ∉ Tag.CANONICAL_TAG_NAMES)
    ∧ ∀ x, x ∈ Session.tags db_session → active x →
           Tag.namespace_id x = namespace_id → Tag.name x ≠ name.
Proof.
  unfold name_available. fold (reserved_prefix lower name).
  destruct (reserved_prefix lower name);
    [split; [done | by intros [? _]] |].
  destruct (bool_decide (name ∈ Tag.RESERVED_TAG_NAMES)) eqn:Hres; simpl.
  { apply bool_decide_eq_true in Hres. split; [done | tauto]. }
  apply bool_decide_eq_false in Hres.
  destruct (bool_decide (name ∈ Tag.CANONICAL_TAG_NAMES)) eqn:Hcan; simpl.
  { apply bool_decide_eq_true in Hcan. split; [done | tauto]. }
  apply bool_decide_eq_false in Hcan.
  case_bool_decide as Hrow.
  - split; [done |]. intros (_ & _ & _ & Hfree). exfalso.
    apply list_elem_of_fmap in Hrow as (x & Hname & Hx).
    apply elem_of_query in Hx as (Hx & Hact & Hns).
    by apply (Hfree x).
  - split; [| done]. intros _. repeat split; auto.
    intros x Hx Hact Hns Hname. apply Hrow.
    apply list_elem_of_fmap. exists x. split; [done |].
    by apply elem_of_query.
Qed.
End NameAvailable.

(** C7: a name whose lowercase form (whatever [str.lower] makes of it)
    starts with one of the reserved provider prefixes is unavailable in
    every namespace and every state of the store; "gmailLabel" is such
    a name, given only that [str.lower] folds ASCII text. *)
Theorem name_available_reserved_provider_prefix (lower : string → string)
    (name provider : string) (namespace_id : Z) (db_session : Session.t)
    (Hprovider : provider ∈ ["gmail"; "outlook"; "yahoo"; "exchange";
                             "inbox"; "icloud"; "aol"])
    (Hprefix : startswith (lower name) provider = true) :
  name_available lower name namespace_id db_session = false
  ∧ (lower_on_ascii lower →
     name_available lower "gmailLabel" namespace_id db_session = false).
Proof.
  assert (Hrejects : ∀ n, reserved_prefix lower n = true →
            name_available lower n namespace_id db_session = false).
  { intros n Hres. unfold name_available.
    fold (reserved_prefix lower n). by rewrite Hres. }
  split.
  - apply Hrejects, reserved_prefix_true. eauto.
  - intros Hlower. apply Hrejects. unfold reserved_prefix.
    by rewrite (ascii_fold_gmailLabel lower Hlower).
Qed.

Lemma name_available_reserved_provider_prefix_witness :
  name_available ascii_fold "Outlook-Archive" 1 session_deleted_work = false
  ∧ name_available ascii_fold "gmailLabel" 1 session_deleted_work = false.
Proof.
  destruct (name_available_reserved_provider_prefix ascii_fold
              "Outlook-Archive" "outlook" 1 session_deleted_work)
    as [Hname Hgmail].
  - apply list_elem_of_further, list_elem_of_here.
  - reflexivity.
  - split; [exact Hname |]. apply Hgmail. intros s _. reflexivity.
Defined.

(** Whatever [str.lower] does outside ASCII, it leaves "ALL" and
    "Unread" available in an empty store. *)
Lemma name_available_reserved_case (lower : string → string) :
  lower_on_ascii lower →
  name_available lower "ALL" 1 empty_session = true
  ∧ name_available lower "Unread" 1 empty_session = true.
Proof.
  intros Hlower. unfold name_available.
  rewrite !Hlower by reflexivity. by split.
Qed.

(** C6, counterexample: "ALL" lowercases to the reserved name "all" and
    "Unread" to the canonical name "unread", and both are available in
    an empty store. *)
Lemma name_available_reserved_case_counterexample :
  (ascii_fold "ALL" ∈ Tag.RESERVED_TAG_NAMES
   ∧ name_available ascii_fold "ALL" 1 empty_session = true)
  ∧ (ascii_fold "Unread" ∈ Tag.CANONICAL_TAG_NAMES
     ∧ name_available ascii_fold "Unread" 1 empty_session = true).
Proof.
  repeat split; try reflexivity; decide_closed.
Qed.

(** C6, amended: a name that is itself (character for character) one of
    the reserved names or one of the canonical names is unavailable in
    every namespace and every state of the store. *)
Theorem name_available_reserved_exact (lower : string → string)
    (name : string) (namespace_id : Z) (db_session : Session.t)
    (Hreserved : name ∈ Tag.RESERVED_TAG_NAMES
                 ∨ name ∈ Tag.CANONICAL_TAG_NAMES) :
  name_available lower name namespace_id db_session = false.
Proof.
  apply not_true_iff_false. intros Havail.
  apply name_available_true in Havail. tauto.
Qed.

Lemma name_available_reserved_exact_witness :
  name_available ascii_fold "unread" 1 empty_session = false.
Proof.
  apply (name_available_reserved_exact ascii_fold "unread" 1 empty_session).
  right. decide_closed.
Defined.

(** C1: the duplicate-name step considers only active tags.  For a
    name that no reserved rule rejects, the name is available exactly
    when no active tag of the namespace carries it; so when every tag
    of the namespace with that name is soft-deleted (one soft-deleted
    tag named so and no active one, in particular), the name is
    available. *)
Theorem name_available_active_only (lower : string → string)
    (name : string) (namespace_id : Z) (db_session : Session.t)
    (Hprefix : reserved_prefix lower name = false)
    (Hreserved : name ∉ Tag.RESERVED_TAG_NAMES)
    (Hcanonical : name ∉ Tag.CANONICAL_TAG_NAMES) :
  (name_available lower name namespace_id db_session = true
   ↔ ∀ x, x ∈ Session.tags db_session → Tag.deleted_at x = None →
          Tag.namespace_id x = namespace_id → Tag.name x ≠ name)
  ∧ ((∀ x, x ∈ Session.tags db_session →
           Tag.namespace_id x = namespace_id → Tag.name x = name →
           Tag.deleted_at x ≠ None) →
     name_available lower name namespace_id db_session = true).
Proof.
  assert (Hiff := name_available_true lower name namespace_id db_session).
  unfold active in Hiff. split; [tauto |].
  intros Hdeleted. apply Hiff. repeat split; try done.
  intros x Hx Hact Hns Hname. by apply (Hdeleted x).
Qed.

Lemma name_available_active_only_witness :
  deleted_work_tag ∈ Session.tags session_deleted_work
  ∧ Tag.name deleted_work_tag = "work"
  ∧ Tag.deleted_at deleted_work_tag ≠ None
  ∧ name_available ascii_fold "work" 1 session_deleted_work = true.
Proof.
  split; [apply list_elem_of_here |]. split; [reflexivity |].
  split; [discriminate |].
  refine (proj2 (name_available_active_only ascii_fold "work" 1
                   session_deleted_work _ _ _) _).
  - reflexivity.
  - decide_closed.
  - decide_closed.
  - intros x Hx _ _. apply list_elem_of_singleton in Hx as ->.
    discriminate.
Defined.

(** ** Canonical tags *)



Section Canonical.
Variable namespace : Namespace.t.

Lemma create_canonical_tags_loop s :
  create_canonical_tags namespace s
  = add_canonical_tags namespace
      (elements (missing_canonical_names namespace s)) s.
Proof. reflexivity. Qed.

(** The loop appends one row per name, in order, and never touches the
    association table. *)
Lemma add_canonical_tags_rows names :
  ∀ s, ∃ rows,
    Session.tags (add_canonical_tags namespace names s)
    = Session.tags s ++ rows
    ∧ Forall2 (canonical_row namespace) names rows
    ∧ Session.tagitems (add_canonical_tags namespace names s)
      = Session.tagitems s.
Proof.
  induction names as [| c names IH]; intros s.
  - exists []. simpl. by rewrite app_nil_r.
  - destruct (IH (Session.add (Tag.init namespace c c) s))
      as (rows & Htags & Hrows & Hitems).
    exists (Session.with_id (Session.next_id (Session.tags s))
              (Tag.init namespace c c) :: rows).
    unfold add_canonical_tags in *. simpl. rewrite Htags, Hitems.
    simpl. rewrite <- app_assoc. repeat split; try done.
    by constructor.
Qed.

(** A canonical name is missing exactly when no active row of the
    namespace has it as public id. *)
Lemma missing_canonical_names_spec s c :
  c ∈ missing_canonical_names namespace s
  ↔ c ∈ Tag.CANONICAL_TAG_NAMES
    ∧ ∀ x, x ∈ Session.tags s → active x →
           Tag.namespace_id x = Namespace.id namespace →
           Tag.public_id x ≠ c.
Proof.
  unfold missing_canonical_names.
  rewrite elem_of_difference, !elem_of_list_to_set, list_elem_of_fmap.
  split.
  - intros [Hc Hnone]. split; [done |]. intros x Hx Hact Hns Hpid.
    apply Hnone. exists x. split; [done |].
    apply elem_of_query. subst c. by repeat split.
  - intros [Hc Hfree]. split; [done |]. intros (x & Hpid & Hx).
    apply elem_of_query in Hx as (Hx & Hact & Hns & _).
    by apply (Hfree x).
Qed.

Lemma elem_of_active_with_public_id n k rows x :
  x ∈ active_with_public_id n k rows
  ↔ x ∈ rows ∧ Tag.namespace_id x = n ∧ Tag.deleted_at x = None
    ∧ Tag.public_id x = k.
Proof.
  unfold active_with_public_id, rows_with_public_id, active.
  rewrite !list_elem_of_filter. tauto.
Qed.

Lemma active_with_public_id_nil n c rows :
  active_with_public_id n c rows = []
  ↔ ∀ x, x ∈ rows → active x → Tag.namespace_id x = n →
         Tag.public_id x ≠ c.
Proof.
  split.
  - intros Hnil x Hx Hact Hns Hpid.
    assert (Hin : x ∈ active_with_public_id n c rows)
      by (by apply elem_of_active_with_public_id).
    rewrite Hnil in Hin. by apply not_elem_of_nil in Hin.
  - intros Hfree.
    destruct (active_with_public_id n c rows) as [| x rest] eqn:Hrows;
      [done |].
    assert (Hin : x ∈ active_with_public_id n c rows)
      by (rewrite Hrows; apply list_elem_of_here).
    apply elem_of_active_with_public_id in Hin as (Hx & Hns & Hact & Hpid).
    by destruct (Hfree x).
Qed.



Lemma rows_with_public_id_nil n c rows :
  rows_with_public_id n c rows = []
  ↔ ∀ x, x ∈ rows → Tag.namespace_id x = n → Tag.public_id x ≠ c.
Proof.
  unfold rows_with_public_id. split.
  - intros Hnil x Hx Hns Hpid.
    assert (Hin : x ∈ filter (λ y, Tag.namespace_id y = n
                                   ∧ Tag.public_id y = c) rows)
      by (by apply list_elem_of_filter).
    rewrite Hnil in Hin. by apply not_elem_of_nil in Hin.
  - intros Hfree. induction rows as [| x rows IH]; [done |].
    rewrite filter_cons_False.
    + apply IH. intros y Hy. apply Hfree. by apply list_elem_of_further.
    + intros [Hns Hpid]. by apply (Hfree x); [apply list_elem_of_here | |].
Qed.

(** The constraint on (namespace_id, public_id) leaves room for at
    most one row per namespace and public id. *)
Lemma rows_with_public_id_unique n c rows :
  UniqueConstraint Tag.namespace_id Tag.public_id rows →
  (length (rows_with_public_id n c rows) ≤ 1)%nat.
Proof.
  unfold UniqueConstraint, rows_with_public_id.
  induction rows as [| x rows IH]; intros Hnodup; [simpl; lia |].
  rewrite fmap_cons in Hnodup. apply NoDup_cons in Hnodup as [Hx Hnodup].
  rewrite filter_cons. case_decide as Hmatch; [| by apply IH].
  destruct Hmatch as [Hns Hpid].
  assert (Hnil : rows_with_public_id n c rows = []).
  { apply rows_with_public_id_nil. intros y Hy Hyns Hypid.
    apply Hx. apply list_elem_of_fmap. exists y. split; [| done].
    congruence. }
  unfold rows_with_public_id in Hnil. rewrite Hnil. simpl. lia.
Qed.


(** After the call every canonical name has an active row in the
    namespace. *)
Lemma create_canonical_tags_covers s c :
  c ∈ Tag.CANONICAL_TAG_NAMES →
  ∃ x, x ∈ Session.tags (create_canonical_tags namespace s)
       ∧ active x
       ∧ Tag.namespace_id x = Namespace.id namespace
       ∧ Tag.public_id x = c.
Proof.
  intros Hc. rewrite create_canonical_tags_loop.
  destruct (add_canonical_tags_rows
              (elements (missing_canonical_names namespace s)) s)
    as (rows & -> & Hrows & _).
  destruct (decide (c ∈ missing_canonical_names namespace s))
    as [Hmiss | Hpresent].
  - apply elem_of_elements, list_elem_of_lookup in Hmiss as [i Hi].
    destruct (Forall2_lookup_l _ _ _ _ _ Hrows Hi) as (x & Hx & Hrow).
    exists x. destruct Hrow as (Hpid & _ & Hns & Hdel & _).
    repeat split; try done.
    apply elem_of_app. right. by eapply list_elem_of_lookup_2.
  - destruct (active_with_public_id (Namespace.id namespace) c
                (Session.tags s)) as [| x rest] eqn:Hrest.
    + exfalso. apply Hpresent, missing_canonical_names_spec.
      split; [done |]. by apply active_with_public_id_nil.
    + assert (Hin : x ∈ active_with_public_id (Namespace.id namespace) c
                          (Session.tags s))
        by (rewrite Hrest; apply list_elem_of_here).
      apply elem_of_active_with_public_id in Hin as (Hx & Hns & Hact & Hpid).
      exists x. repeat split; try done.
      apply elem_of_app. by left.
Qed.

Lemma create_canonical_tags_nothing_missing s :
  missing_canonical_names namespace (create_canonical_tags namespace s) = ∅.
Proof.
  apply set_eq. intros c. split; [| by intros ?%not_elem_of_empty].
  intros [Hc Hfree]%missing_canonical_names_spec. exfalso.
  destruct (create_canonical_tags_covers s c Hc)
    as (x & Hx & Hact & Hns & Hpid).
  by apply (Hfree x).
Qed.
End Canonical.

(** C3: calling [create_canonical_tags] a second time on the same
    namespace changes nothing: the session after the second call is the
    session after the first, so no row is added. *)
Theorem create_canonical_tags_idempotent (namespace : Namespace.t)
    (db_session : Session.t) :
  create_canonical_tags namespace (create_canonical_tags namespace db_session)
  = create_canonical_tags namespace db_session
  ∧ length (Session.tags
              (create_canonical_tags namespace
                 (create_canonical_tags namespace db_session)))
    = length (Session.tags (create_canonical_tags namespace db_session)).
Proof.
  assert (Hsame :
    create_canonical_tags namespace
      (create_canonical_tags namespace db_session)
    = create_canonical_tags namespace db_session).
  { rewrite (create_canonical_tags_loop namespace
               (create_canonical_tags namespace db_session)).
    rewrite create_canonical_tags_nothing_missing.
    by rewrite elements_empty. }
  split; [done | by rewrite Hsame].
Qed.



(** The store of the witness, evaluated: the soft-deleted "inbox" row
    is not seen by the query, so a second, active "inbox" row is added
    to the session; the table then has two rows with the same
    (namespace_id, public_id) and the store rejects the flush. *)
Example create_canonical_tags_session_deleted_inbox :
  Tag.deleted_at <$>
    rows_with_public_id 1 "inbox"
      (Session.tags (create_canonical_tags ns1 session_deleted_inbox))
  = [Some 1400000000; None]
  ∧ run (OpCanonical ns1) session_deleted_inbox = None.
Proof. split; vm_compute; reflexivity. Qed.

(** ** The soft-delete cascade *)

(** The hook leaves the session alone unless the target went from
    active to soft-deleted. *)
Lemma _after_tag_update_no_transition (s : Session.t) committed target :
  ¬ (committed = None ∧ Tag.deleted_at target ≠ None) →
  _after_tag_update s committed target = s.
Proof.
  intros Hno. unfold _after_tag_update, propagate_soft_delete.
  destruct committed as [t |]; [done |].
  destruct (Tag.deleted_at target) as [t |]; [| done].
  exfalso. apply Hno. done.
Qed.

(** On a transition, the rows of the target that are still active get
    the target's deletion time. *)
Lemma _after_tag_update_transition (s : Session.t) target now :
  Tag.deleted_at target = Some now →
  _after_tag_update s None target
  = {| Session.tags := Session.tags s;
       Session.tagitems :=
         (λ r, if decide (TagItem.tag_id r = Tag.id target
                          ∧ TagItem.deleted_at r = None)
               then mark_deleted now r else r)
           <$> Session.tagitems s |}.
Proof.
  intros Hdel. unfold _after_tag_update, propagate_soft_delete.
  rewrite Hdel. simpl. f_equal. apply list_fmap_ext. intros _ r _.
  unfold fk_column. simpl.
  destruct (decide (TagItem.tag_id r = Tag.id target
                    ∧ TagItem.deleted_at r = None)) as [[Heq Hnone] | Hno].
  - rewrite decide_True; [done |]. split; [by rewrite Heq | done].
  - rewrite decide_False; [done |]. intros [Heq Hnone]. apply Hno.
    split; [congruence | done].
Qed.

Section Cascade.
Variable s : Session.t.

Lemma add_tagitems x :
  Session.tagitems (Session.add x s) = Session.tagitems s.
Proof. reflexivity. Qed.

Lemma update_no_transition old new :
  ¬ (Tag.deleted_at old = None ∧ Tag.deleted_at new ≠ None) →
  Session.tagitems (update old new s) = Session.tagitems s.
Proof.
  intros Hno. unfold update.
  by rewrite _after_tag_update_no_transition.
Qed.

Lemma rename_tagitems tag new_name :
  Session.tagitems (rename tag new_name s) = Session.tagitems s.
Proof.
  unfold rename. destruct (get tag s) as [old |]; [| done].
  apply update_no_transition. simpl. intros [Hnone Hsome]. done.
Qed.

Lemma create_canonical_tags_tagitems namespace :
  Session.tagitems (create_canonical_tags namespace s) = Session.tagitems s.
Proof.
  rewrite create_canonical_tags_loop.
  by destruct (add_canonical_tags_rows namespace
                 (elements (missing_canonical_names namespace s)) s)
    as (rows & _ & _ & ->).
Qed.
End Cascade.

(** C4: creating a tag (directly or through [create_canonical_tags])
    and renaming a tag leave every association row as it was; and an
    update that does change the association table is one in which the
    tag went from active to soft-deleted. *)
Theorem cascade_only_on_soft_delete (s : Session.t) :
  (∀ namespace public_id name user_created,
     Session.tagitems (create namespace public_id name user_created s)
     = Session.tagitems s)
  ∧ (∀ namespace,
       Session.tagitems (create_canonical_tags namespace s)
       = Session.tagitems s)
  ∧ (∀ tag new_name,
       Session.tagitems (rename tag new_name s) = Session.tagitems s)
  ∧ (∀ old new,
       Session.tagitems (update old new s) ≠ Session.tagitems s →
       Tag.deleted_at old = None ∧ Tag.deleted_at new ≠ None).
Proof.
  split; [reflexivity |].
  split; [apply create_canonical_tags_tagitems |].
  split; [apply rename_tagitems |].
  intros old new Hchanged.
  destruct (Tag.deleted_at old) as [t |] eqn:Hold.
  - exfalso. apply Hchanged, update_no_transition. rewrite Hold.
    by intros [? _].
  - split; [done |]. intros Hnew.
    apply Hchanged, update_no_transition. rewrite Hnew. by intros [_ ?].
Qed.

Lemma cascade_only_on_soft_delete_witness :
  Tag.deleted_at starred_tag = None
  ∧ Tag.deleted_at (set_deleted_at 1400000000 starred_tag) ≠ None.
Proof.
  apply (proj2 (proj2 (proj2
           (cascade_only_on_soft_delete session_with_items)))).
  vm_compute. discriminate.
Defined.

Lemma get_Some tag s x :
  get tag s = Some x → x ∈ Session.tags s ∧ Tag.id x = tag.
Proof.
  unfold get. intros Hget.
  apply fmap_Some in Hget as ([i y] & Hfind & ->).
  apply list_find_Some in Hfind as (Hi & Hid & _).
  split; [by eapply list_elem_of_lookup_2 | done].
Qed.

Lemma soft_delete_tagitems tag now s old :
  get tag s = Some old → active old →
  Session.tagitems (soft_delete tag now s)
  = (λ r, if decide (TagItem.tag_id r = tag) then cascaded now r else r)
      <$> Session.tagitems s.
Proof.
  intros Hget Hactive. unfold soft_delete, update. rewrite Hget, Hactive.
  rewrite (_after_tag_update_transition _ _ now) by done. simpl.
  apply get_Some in Hget as [_ Hid].
  apply list_fmap_ext. intros _ r _. unfold cascaded. rewrite Hid.
  destruct (decide (TagItem.tag_id r = tag)) as [Heq | Hne].
  - destruct (TagItem.deleted_at r) as [t |].
    + by rewrite decide_False by (by intros [_ ?]).
    + by rewrite decide_True.
  - by rewrite decide_False by (by intros [? _]).
Qed.

(** C5: soft-deleting an active tag leaves the association table with
    the same rows in the same places, where every row of that tag has
    [deleted_at] set (the rows that were active carry the deletion time
    of the tag) and every row of any other tag is unchanged; the tag
    itself carries that deletion time. *)
Theorem soft_delete_cascades_to_own_tagitems (s : Session.t) (old : Tag.t)
    (now : Z)
    (Hloaded : get (Tag.id old) s = Some old)
    (Hactive : active old) :
  let s' := soft_delete (Tag.id old) now s in
  length (Session.tagitems s') = length (Session.tagitems s)
  ∧ (∀ k r, Session.tagitems s !! k = Some r →
       TagItem.tag_id r = Tag.id old →
       Session.tagitems s' !! k = Some (cascaded now r)
       ∧ TagItem.deleted_at (cascaded now r) ≠ None
       ∧ (TagItem.deleted_at r = None →
          TagItem.deleted_at (cascaded now r) = Some now))
  ∧ (∀ k r, Session.tagitems s !! k = Some r →
       TagItem.tag_id r ≠ Tag.id old →
       Session.tagitems s' !! k = Some r)
  ∧ (∀ r', r' ∈ Session.tagitems s' → TagItem.tag_id r' = Tag.id old →
       TagItem.deleted_at r' ≠ None)
  ∧ (∀ x, x ∈ Session.tags s' → Tag.id x = Tag.id old →
       Tag.deleted_at x = Some now).
Proof.
  intros s'. subst s'.
  rewrite (soft_delete_tagitems _ now _ _ Hloaded Hactive).
  assert (Hset : ∀ r, TagItem.deleted_at (cascaded now r) ≠ None).
  { intros r. unfold cascaded.
    destruct (TagItem.deleted_at r) eqn:Hr; simpl; congruence. }
  split; [by rewrite length_fmap |]. split; [| split; [| split]].
  - intros k r Hk Htag. rewrite list_lookup_fmap, Hk. simpl.
    rewrite decide_True by done. repeat split; [apply Hset |].
    intros Hnone. unfold cascaded. by rewrite Hnone.
  - intros k r Hk Htag. rewrite list_lookup_fmap, Hk. simpl.
    by rewrite decide_False.
  - intros r' Hin Htag.
    apply list_elem_of_fmap in Hin as (r & -> & _).
    destruct (decide (TagItem.tag_id r = Tag.id old)) as [_ | Hne].
    + apply Hset.
    + done.
  - intros x Hx Hid. unfold soft_delete, update in Hx.
    rewrite Hloaded, Hactive in Hx.
    rewrite (_after_tag_update_transition _ _ now) in Hx by done.
    simpl in Hx. apply list_elem_of_fmap in Hx as (y & -> & _).
    destruct (decide (Tag.id y = Tag.id old)) as [_ | Hne]; done.
Qed.

Lemma soft_delete_cascades_to_own_tagitems_witness :
  length (Session.tagitems (soft_delete 7 1400000000 session_with_items))
  = length (Session.tagitems session_with_items)
  ∧ (∀ r', r' ∈ Session.tagitems
                  (soft_delete 7 1400000000 session_with_items) →
           TagItem.tag_id r' = 7 → TagItem.deleted_at r' ≠ None).
Proof.
  destruct (soft_delete_cascades_to_own_tagitems
              session_with_items starred_tag 1400000000)
    as (Hlen & _ & _ & Hset & _); [reflexivity | reflexivity |].
  split; [exact Hlen | exact Hset].
Defined.

(** The example above, evaluated: the two rows of tag 7 end up deleted
    (the active one at the tag's deletion time, the other keeping its
    own), the row of tag 10 is as before. *)
Example soft_delete_session_with_items :
  Session.tagitems (soft_delete 7 1400000000 session_with_items)
  = [ {| TagItem.tag_id := 7; TagItem.thread_id := 100;
         TagItem.deleted_at := Some 1400000000 |};
      {| TagItem.tag_id := 7; TagItem.thread_id := 101;
         TagItem.deleted_at := Some 1300000000 |};
      {| TagItem.tag_id := 10; TagItem.thread_id := 100;
         TagItem.deleted_at := None |} ].
Proof. reflexivity. Qed.


(** ** The unique constraints and the active rows *)

Lemma UniqueConstraint_snoc {A B : Type} (a : Tag.t → A) (b : Tag.t → B)
    rows x :
  UniqueConstraint a b (rows ++ [x])
  ↔ UniqueConstraint a b rows
    ∧ ∀ y, y ∈ rows → ¬ (a y = a x ∧ b y = b x).
Proof.
  unfold UniqueConstraint. rewrite fmap_app, NoDup_app. simpl. split.
  - intros (Hrows & Hfresh & _). split; [done |].
    intros y Hy [Ha Hb]. apply (Hfresh (a y, b y)).
    + apply list_elem_of_fmap. by exists y.
    + rewrite Ha, Hb. apply list_elem_of_here.
  - intros [Hrows Hfresh]. repeat split; [done | | apply NoDup_singleton].
    intros k Hk Hin. apply list_elem_of_singleton in Hin as ->.
    apply list_elem_of_fmap in Hk as (y & Hkey & Hy).
    apply (Hfresh y Hy). by inversion Hkey.
Qed.

Lemma namespace_keys {B : Type} (b : Tag.t → B) nsid (rows : list Tag.t) :
  Forall (λ x, Tag.namespace_id x = nsid) rows →
  (λ x, (Tag.namespace_id x, b x)) <$> rows
  = (λ k, (nsid, k)) <$> (b <$> rows).
Proof.
  induction 1 as [| x rows Hx _ IH]; [done |].
  by rewrite !fmap_cons, IH, Hx.
Qed.

(** Appending rows of one namespace with pairwise distinct values of
    the column [b] keeps the constraint on (namespace_id, b) exactly
    when no old row of that namespace has one of the new values. *)
Lemma UniqueConstraint_app_namespace {B : Type} (b : Tag.t → B) nsid
    (old new : list Tag.t) :
  Forall (λ x, Tag.namespace_id x = nsid) new →
  NoDup (b <$> new) →
  UniqueConstraint Tag.namespace_id b (old ++ new)
  ↔ UniqueConstraint Tag.namespace_id b old
    ∧ ∀ x, x ∈ old → Tag.namespace_id x = nsid → b x ∉ b <$> new.
Proof.
  intros Hns Hnodup. unfold UniqueConstraint.
  rewrite fmap_app, NoDup_app, (namespace_keys b nsid new Hns). split.
  - intros (Hold & Hdisj & _). split; [done |].
    intros x Hx Hxns Hin.
    apply (Hdisj (Tag.namespace_id x, b x)).
    + apply list_elem_of_fmap. by exists x.
    + rewrite Hxns. by apply list_elem_of_fmap_2.
  - intros [Hold Hfree]. split; [done |]. split.
    + intros k Hk Hin.
      apply list_elem_of_fmap in Hk as (x & -> & Hx).
      apply list_elem_of_fmap in Hin as (v & Hkey & Hv).
      inversion Hkey as [[Hxns Hb]]. apply (Hfree x Hx Hxns).
      by rewrite Hb.
    + apply NoDup_fmap_2_strong; [| done].
      intros v w _ _ Heq. by inversion Heq.
Qed.

(** Both unique constraints range over all rows, so they hold in
    particular among the active rows. *)
Lemma table_args_active_unique rows :
  table_args rows → active_unique rows.
Proof.
  intros [Hname Hpid] i j x y Hi Hj Hij _ _ Hns.
  unfold UniqueConstraint in *.
  split; intros Heq; apply Hij.
  - apply (proj1 (NoDup_alt _) Hname i j
             (Tag.namespace_id x, Tag.name x));
      rewrite list_lookup_fmap; [rewrite Hi | rewrite Hj]; simpl;
      congruence.
  - apply (proj1 (NoDup_alt _) Hpid i j
             (Tag.namespace_id x, Tag.public_id x));
      rewrite list_lookup_fmap; [rewrite Hi | rewrite Hj]; simpl;
      congruence.
Qed.

Lemma flush_Some s s' :
  flush s = Some s' → s' = s ∧ table_args (Session.tags s).
Proof.
  unfold flush. case_decide; [| done]. intros [= <-]. done.
Qed.

Lemma canonical_rows_columns namespace names rows :
  Forall2 (canonical_row namespace) names rows →
  Tag.public_id <$> rows = names
  ∧ Tag.name <$> rows = names
  ∧ Forall (λ x, Tag.namespace_id x = Namespace.id namespace
                 ∧ Tag.name x = Tag.public_id x
                 ∧ Tag.user_created x = false
                 ∧ Tag.deleted_at x = None) rows.
Proof.
  induction 1 as [| c x names rows (Hpid & Hname & Hns & Hdel & Huc) _ IH].
  - repeat split; constructor.
  - destruct IH as (IHpid & IHname & IHall).
    rewrite !fmap_cons, IHpid, IHname, Hpid, Hname.
    repeat split; try done. constructor; [| done].
    repeat split; congruence.
Qed.



(** ** What each mutation does to the active rows *)











(** ** Uniqueness among active tags *)



(** The guard at work: a second active tag named "starred" in
    namespace 1, or the canonical tags when another tag of the
    namespace already has one of their names, is rejected by the store. *)
Example run_rejects_duplicate_name :
  run (OpCreate ns1 "k3x9" "starred" true) session_with_items = None
  ∧ run (OpRename 10 "starred") session_with_items = None
  ∧ run (OpCanonical ns1)
      (create ns1 "k3x9" "spam" true empty_session) = None.
Proof. repeat split; vm_compute; reflexivity. Qed.

(** Every session reached from the empty store by committed steps has
    the invariant. *)
Lemma reachable_active_unique s :
  reachable s → active_unique (Session.tags s).
Proof.
  induction 1 as [| op s s' _ _ Hrun].
  - intros i j x y Hi. simpl in Hi. by rewrite lookup_nil in Hi.
  - unfold run in Hrun. apply flush_Some in Hrun as [-> Hargs].
    by apply table_args_active_unique.
Qed.

(** * Further properties *)

(** ** The mutability policy, characterised *)

(** The two properties differ on exactly one kind of tag: a tag is
    removable but not addable if and only if it is not user-created and
    its public id is "unseen". *)
Theorem user_removable_not_addable_iff (self : Tag.t) :
  Tag.user_removable self = true ∧ Tag.user_addable self = false
  ↔ Tag.user_created self = false ∧ Tag.public_id self = "unseen".
Proof.
  rewrite user_removable_spec.
  rewrite <- (not_true_iff_false (Tag.user_addable self)).
  rewrite user_addable_spec. split.
  - intros [Hrem Hadd].
    destruct (Tag.user_created self) eqn:Hcreated; [tauto |].
    split; [done |]. destruct Hrem as [? | [? | ?]]; [done | tauto | done].
  - intros [Hcreated Hunseen]. split; [tauto |].
    rewrite Hcreated, Hunseen. intros [? | Hin]; [done |].
    assert (Hnot : "unseen" ∉ Tag.USER_MUTABLE_TAGS) by decide_closed.
    by apply Hnot.
Qed.

(** ** Name availability and the rows of the store *)

Lemma name_available_names lower name ns s :
  name_available lower name ns s
  = negb (reserved_prefix lower name)
    && negb (bool_decide (name ∈ Tag.RESERVED_TAG_NAMES)
             || bool_decide (name ∈ Tag.CANONICAL_TAG_NAMES))
    && negb (bool_decide (name ∈ namespace_names ns s)).
Proof.
  unfold name_available, namespace_names. fold (reserved_prefix lower name).
  destruct (reserved_prefix lower name); [done |].
  destruct (bool_decide (name ∈ Tag.RESERVED_TAG_NAMES)
            || bool_decide (name ∈ Tag.CANONICAL_TAG_NAMES)); [done |].
  simpl. by case_bool_decide.
Qed.

Lemma elem_of_namespace_names n ns s :
  n ∈ namespace_names ns s
  ↔ ∃ x, x ∈ Session.tags s ∧ active x
         ∧ Tag.namespace_id x = ns ∧ Tag.name x = n.
Proof.
  unfold namespace_names. rewrite list_elem_of_fmap. split.
  - intros (x & -> & (Hx & Hact & Hns)%elem_of_query). by exists x.
  - intros (x & Hx & Hact & Hns & <-). exists x. split; [done |].
    by apply elem_of_query.
Qed.

(** Availability in a namespace is decided by the names of the active
    tag rows of that namespace alone: two stores whose active rows of
    the namespace carry the same names give the same answer, whatever
    their other namespaces, their association rows, and the ids and
    public ids of the rows. *)
Theorem name_available_namespace_isolation (lower : string → string)
    (name : string) (ns : Z) (s1 s2 : Session.t)
    (Hnames : ∀ n,
       (∃ x, x ∈ Session.tags s1 ∧ Tag.deleted_at x = None
             ∧ Tag.namespace_id x = ns ∧ Tag.name x = n)
       ↔ (∃ x, x ∈ Session.tags s2 ∧ Tag.deleted_at x = None
               ∧ Tag.namespace_id x = ns ∧ Tag.name x = n)) :
  name_available lower name ns s1 = name_available lower name ns s2.
Proof.
  rewrite !name_available_names.
  assert (Hiff : name ∈ namespace_names ns s1
                 ↔ name ∈ namespace_names ns s2)
    by (rewrite !elem_of_namespace_names; apply Hnames).
  by rewrite (bool_decide_ext _ _ Hiff).
Qed.

Lemma name_available_namespace_isolation_witness :
  name_available ascii_fold "work" 1 session_two_namespaces
  = name_available ascii_fold "work" 1 session_deleted_work.
Proof.
  apply (name_available_namespace_isolation ascii_fold "work" 1
           session_two_namespaces session_deleted_work).
  intros n. split; intros (x & Hx & Hact & Hns & _); exfalso.
  - apply elem_of_cons in Hx as [-> | Hx]; [discriminate Hact |].
    apply list_elem_of_singleton in Hx as ->. discriminate Hns.
  - apply list_elem_of_singleton in Hx as ->. discriminate Hact.
Defined.

Lemma namespace_names_create namespace pid n uc s ns' :
  namespace_names ns' (create namespace pid n uc s)
  = namespace_names ns' s
    ++ (if decide (Namespace.id namespace = ns') then [n] else []).
Proof.
  unfold namespace_names, Session.query, create, Session.add. simpl.
  rewrite filter_app, fmap_app. f_equal.
  rewrite filter_cons. simpl.
  destruct (decide (Namespace.id namespace = ns')) as [Heq | Hne].
  - by rewrite decide_True.
  - by rewrite decide_False by (by intros [_ ?]).
Qed.

(** Creating a tag takes its name in its namespace and nothing else: in
    the store after the insert the created name is unavailable in the
    namespace of the tag, and every other name, and every name in any
    other namespace, is as available as before. *)
Theorem name_available_after_create (lower : string → string)
    (namespace : Namespace.t)
    (public_id name : string) (user_created : bool) (s : Session.t)
    (name' : string) (ns' : Z) :
  name_available lower name' ns'
    (create namespace public_id name user_created s)
  = if decide (ns' = Namespace.id namespace ∧ name' = name) then false
    else name_available lower name' ns' s.
Proof.
  rewrite !name_available_names, namespace_names_create.
  destruct (decide (ns' = Namespace.id namespace ∧ name' = name))
    as [[-> ->] | Hother].
  - rewrite decide_True by done.
    rewrite (bool_decide_eq_true_2 (name ∈ _ ++ [name]));
      [by rewrite andb_false_r |].
    apply elem_of_app. right. apply list_elem_of_here.
  - assert (Hiff : name' ∈ namespace_names ns' s
                      ++ (if decide (Namespace.id namespace = ns')
                          then [name] else [])
                   ↔ name' ∈ namespace_names ns' s).
    { case_decide as Hns; [| by rewrite app_nil_r].
      rewrite elem_of_app, list_elem_of_singleton.
      split; [| tauto]. intros [? | ->]; [done |].
      exfalso. apply Hother. by subst. }
    by rewrite (bool_decide_ext _ _ Hiff).
Qed.

(** ** Inserts and the unique constraints *)

Lemma table_args_create namespace pid n uc s :
  table_args (Session.tags s) →
  table_args (Session.tags (create namespace pid n uc s))
  ↔ ∀ x, x ∈ Session.tags s →
         Tag.namespace_id x = Namespace.id namespace →
         Tag.name x ≠ n ∧ Tag.public_id x ≠ pid.
Proof.
  intros [Hname Hpid]. unfold table_args, create, Session.add. simpl.
  rewrite !UniqueConstraint_snoc. simpl. split.
  - intros [[_ Hn] [_ Hp]] x Hx Hns. split; intros Heq.
    + by apply (Hn x).
    + by apply (Hp x).
  - intros Hfree. repeat split; try done.
    + intros y Hy [Hns Heq]. by destruct (Hfree y Hy Hns).
    + intros y Hy [Hns Heq]. by destruct (Hfree y Hy Hns).
Qed.

(** In a store that satisfies its constraints, the insert of a new tag
    is accepted exactly when no tag row of the namespace, active or
    soft-deleted, has its name or its public id; otherwise the flush is
    rejected (IntegrityError) and nothing is stored. *)
Theorem create_accepted_iff (namespace : Namespace.t)
    (public_id name : string) (user_created : bool) (s : Session.t)
    (Hargs : table_args (Session.tags s)) :
  (run (OpCreate namespace public_id name user_created) s
   = Some (create namespace public_id name user_created s)
   ↔ ∀ x, x ∈ Session.tags s →
          Tag.namespace_id x = Namespace.id namespace →
          Tag.name x ≠ name ∧ Tag.public_id x ≠ public_id)
  ∧ (run (OpCreate namespace public_id name user_created) s = None
     ↔ ∃ x, x ∈ Session.tags s
            ∧ Tag.namespace_id x = Namespace.id namespace
            ∧ (Tag.name x = name ∨ Tag.public_id x = public_id)).
Proof.
  assert (Hiff := table_args_create namespace public_id name user_created
                    s Hargs).
  unfold run, apply_op, flush.
  destruct (decide (table_args
                      (Session.tags
                         (create namespace public_id name user_created s))))
    as [Hok | Hbad].
  - split; [tauto |]. split; [done |].
    intros (x & Hx & Hns & Hclash).
    destruct (proj1 Hiff Hok x Hx Hns). tauto.
  - split; [split; [done | tauto] |]. split; [| done]. intros _.
    destruct (decide (Exists
                        (λ x, Tag.namespace_id x = Namespace.id namespace
                              ∧ (Tag.name x = name
                                 ∨ Tag.public_id x = public_id))
                        (Session.tags s))) as [Hclash | Hnone].
    + by apply Exists_exists in Hclash.
    + exfalso. apply Hbad, Hiff. intros x Hx Hns.
      split; intros Heq; apply Hnone, Exists_exists; exists x; tauto.
Qed.

Lemma create_accepted_iff_witness :
  (run (OpCreate ns1 "k3x9" "work" true) session_with_items
   = Some (create ns1 "k3x9" "work" true session_with_items)
   ↔ ∀ x, x ∈ Session.tags session_with_items →
          Tag.namespace_id x = 1 →
          Tag.name x ≠ "work" ∧ Tag.public_id x ≠ "k3x9")
  ∧ (run (OpCreate ns1 "k3x9" "work" true) session_with_items = None
     ↔ ∃ x, x ∈ Session.tags session_with_items
            ∧ Tag.namespace_id x = 1
            ∧ (Tag.name x = "work" ∨ Tag.public_id x = "k3x9")).
Proof.
  apply (create_accepted_iff ns1 "k3x9" "work" true session_with_items).
  decide_closed.
Defined.

(** The availability check is a sound pre-check for the insert as far
    as the active rows go: in a store that satisfies its constraints, a
    name that [name_available] reports available can be inserted and
    the flush is accepted, provided no row of the namespace carries the
    public id and no soft-deleted row of the namespace still carries
    the name (the constraint on (namespace_id, name) counts those
    too). *)
Theorem name_available_create_accepted (lower : string → string)
    (namespace : Namespace.t)
    (public_id name : string) (user_created : bool) (s : Session.t)
    (Hargs : table_args (Session.tags s))
    (Havailable : name_available lower name (Namespace.id namespace) s
                  = true)
    (Hpublic_id : ∀ x, x ∈ Session.tags s →
                       Tag.namespace_id x = Namespace.id namespace →
                       Tag.public_id x ≠ public_id)
    (Hdeleted : ∀ x, x ∈ Session.tags s →
                     Tag.namespace_id x = Namespace.id namespace →
                     Tag.deleted_at x ≠ None → Tag.name x ≠ name) :
  run (OpCreate namespace public_id name user_created) s
  = Some (create namespace public_id name user_created s).
Proof.
  apply name_available_true in Havailable as (_ & _ & _ & Hfree).
  unfold run, apply_op, flush. rewrite decide_True; [done |].
  apply table_args_create; [done |]. intros x Hx Hns. split.
  - destruct (decide (Tag.deleted_at x = None)) as [Hact | Hdel].
    + by apply Hfree.
    + by apply Hdeleted.
  - by apply Hpublic_id.
Qed.

Lemma name_available_create_accepted_witness :
  run (OpCreate ns1 "k3x9" "work" true) session_with_items
  = Some (create ns1 "k3x9" "work" true session_with_items).
Proof.
  apply (name_available_create_accepted ascii_fold ns1 "k3x9" "work" true
           session_with_items).
  - decide_closed.
  - reflexivity.
  - intros x Hx _.
    apply elem_of_cons in Hx as [-> | Hx]; [done |].
    apply list_elem_of_singleton in Hx as ->. done.
  - intros x Hx _.
    apply elem_of_cons in Hx as [-> | Hx]; [done |].
    apply list_elem_of_singleton in Hx as ->. done.
Defined.

(** Without the last proviso the pre-check is not enough: the only tag
    named "work" of namespace 1 is soft-deleted, the name is reported
    available, and the insert is rejected by the store. *)
Example name_available_but_rejected :
  name_available ascii_fold "work" 1 session_deleted_work = true
  ∧ run (OpCreate ns1 "p7qd" "work" true) session_deleted_work = None.
Proof. split; vm_compute; reflexivity. Qed.

(** ** What [create_canonical_tags] adds *)

(** The rows of the store after the call: the old rows, then one row
    per missing name. *)
Lemma create_canonical_tags_rows namespace s :
  ∃ rows,
    Session.tags (create_canonical_tags namespace s)
    = Session.tags s ++ rows
    ∧ Tag.public_id <$> rows
      = elements (missing_canonical_names namespace s)
    ∧ Tag.name <$> rows = elements (missing_canonical_names namespace s)
    ∧ Forall (λ x, Tag.namespace_id x = Namespace.id namespace
                   ∧ Tag.name x = Tag.public_id x
                   ∧ Tag.user_created x = false
                   ∧ Tag.deleted_at x = None) rows.
Proof.
  rewrite create_canonical_tags_loop.
  destruct (add_canonical_tags_rows namespace
              (elements (missing_canonical_names namespace s)) s)
    as (rows & Htags & Hrows & _).
  exists rows. split; [done |].
  by apply canonical_rows_columns.
Qed.

(** [create_canonical_tags] only appends: the rows that were in the
    store stay, unchanged and in place, and each appended row is an
    active, not user-created tag of the given namespace whose name and
    public id are one canonical name that no active row of the
    namespace had as public id; no canonical name is appended twice. *)
Theorem create_canonical_tags_appends (namespace : Namespace.t)
    (s : Session.t) :
  ∃ rows,
    Session.tags (create_canonical_tags namespace s) = Session.tags s ++ rows
    ∧ NoDup (Tag.public_id <$> rows)
    ∧ Forall (λ x, Tag.namespace_id x = Namespace.id namespace
                   ∧ Tag.public_id x ∈ Tag.CANONICAL_TAG_NAMES
                   ∧ Tag.name x = Tag.public_id x
                   ∧ Tag.user_created x = false
                   ∧ Tag.deleted_at x = None
                   ∧ ∀ y, y ∈ Session.tags s → Tag.deleted_at y = None →
                          Tag.namespace_id y = Namespace.id namespace →
                          Tag.public_id y ≠ Tag.public_id x) rows.
Proof.
  destruct (create_canonical_tags_rows namespace s)
    as (rows & Htags & Hpid & _ & Hall).
  exists rows. split; [done |]. split.
  - rewrite Hpid. apply NoDup_elements.
  - apply Forall_forall. intros x Hx.
    assert (Hmiss : Tag.public_id x
                    ∈ missing_canonical_names namespace s).
    { apply elem_of_elements. rewrite <- Hpid.
      by apply list_elem_of_fmap_2. }
    apply missing_canonical_names_spec in Hmiss as [Hcan Hfree].
    rewrite Forall_forall in Hall.
    destruct (Hall x Hx) as (Hns & Hname & Huc & Hdel).
    split; [done |]. split; [done |]. split; [done |].
    split; [done |]. split; [done |].
    intros y Hy Hact Hyns. by apply Hfree.
Qed.

(** A namespace that has no tag row yet gets one row for each of the
    eleven canonical names. *)
Theorem create_canonical_tags_fresh_namespace (namespace : Namespace.t)
    (s : Session.t)
    (Hfresh : ∀ x, x ∈ Session.tags s →
                   Tag.namespace_id x ≠ Namespace.id namespace) :
  ∃ rows,
    Session.tags (create_canonical_tags namespace s) = Session.tags s ++ rows
    ∧ Tag.public_id <$> rows ≡ₚ Tag.CANONICAL_TAG_NAMES
    ∧ length rows = 11%nat.
Proof.
  destruct (create_canonical_tags_rows namespace s)
    as (rows & Htags & Hpid & _ & _).
  assert (Hperm : Tag.public_id <$> rows ≡ₚ Tag.CANONICAL_TAG_NAMES).
  { rewrite Hpid. apply NoDup_Permutation.
    - apply NoDup_elements.
    - decide_closed.
    - intros c. rewrite elem_of_elements, missing_canonical_names_spec.
      split; [tauto |]. intros Hc. split; [done |].
      intros x Hx _ Hns _. by apply (Hfresh x). }
  exists rows. repeat split; [done | done |].
  rewrite <- (length_fmap Tag.public_id), Hperm. reflexivity.
Qed.

Lemma create_canonical_tags_fresh_namespace_witness :
  ∃ rows,
    Session.tags (create_canonical_tags ns1 {| Session.tags := [work_tag_ns2];
                                               Session.tagitems := [] |})
    = [work_tag_ns2] ++ rows
    ∧ Tag.public_id <$> rows ≡ₚ Tag.CANONICAL_TAG_NAMES
    ∧ length rows = 11%nat.
Proof.
  apply (create_canonical_tags_fresh_namespace ns1
           {| Session.tags := [work_tag_ns2]; Session.tagitems := [] |}).
  intros x Hx. apply list_elem_of_singleton in Hx as ->. done.
Defined.

(** The call changes nothing exactly when every canonical name already
    is the public id of some active row of the namespace. *)
Theorem create_canonical_tags_noop_iff (namespace : Namespace.t)
    (s : Session.t) :
  create_canonical_tags namespace s = s
  ↔ ∀ c, c ∈ Tag.CANONICAL_TAG_NAMES →
         ∃ x, x ∈ Session.tags s
              ∧ Tag.deleted_at x = None
              ∧ Tag.namespace_id x = Namespace.id namespace
              ∧ Tag.public_id x = c.
Proof.
  split.
  - intros Hsame c Hc. rewrite <- Hsame.
    by apply create_canonical_tags_covers.
  - intros Hcovered. rewrite create_canonical_tags_loop.
    assert (Hnone : missing_canonical_names namespace s = ∅).
    { apply set_eq. intros c. split; [| by intros ?%not_elem_of_empty].
      intros [Hc Hfree]%missing_canonical_names_spec. exfalso.
      destruct (Hcovered c Hc) as (x & Hx & Hact & Hns & Hpid).
      by apply (Hfree x). }
    by rewrite Hnone, elements_empty.
Qed.

(** ** [create_canonical_tags] and the unique constraints *)

Lemma table_args_create_canonical_tags namespace s :
  table_args (Session.tags s) →
  table_args (Session.tags (create_canonical_tags namespace s))
  ↔ ∀ x, x ∈ Session.tags s →
         Tag.namespace_id x = Namespace.id namespace →
         (Tag.name x ∉ missing_canonical_names namespace s)
         ∧ (Tag.public_id x ∉ missing_canonical_names namespace s).
Proof.
  intros [Hname Hpid]. unfold table_args.
  destruct (create_canonical_tags_rows namespace s)
    as (rows & -> & Hpids & Hnames & Hall).
  assert (Hns : Forall (λ x, Tag.namespace_id x = Namespace.id namespace)
                  rows)
    by (eapply Forall_impl; [exact Hall |]; by intros x [? _]).
  rewrite (UniqueConstraint_app_namespace Tag.name
             (Namespace.id namespace) _ rows Hns)
    by (rewrite Hnames; apply NoDup_elements).
  rewrite (UniqueConstraint_app_namespace Tag.public_id
             (Namespace.id namespace) _ rows Hns)
    by (rewrite Hpids; apply NoDup_elements).
  rewrite Hnames, Hpids. setoid_rewrite elem_of_elements. split.
  - intros [[_ Hn] [_ Hp]] x Hx Hxns. split; [by apply Hn | by apply Hp].
  - intros Hfree. repeat split; try done; intros x Hx Hxns;
      by destruct (Hfree x Hx Hxns).
Qed.

(** In a store that satisfies its constraints, the flush after
    [create_canonical_tags] is accepted exactly when no tag row of the
    namespace, active or soft-deleted, has the name or the public id of
    one of the canonical tags about to be inserted; otherwise it is
    rejected (IntegrityError). *)
Theorem create_canonical_tags_accepted_iff (namespace : Namespace.t)
    (s : Session.t) (Hargs : table_args (Session.tags s)) :
  (run (OpCanonical namespace) s = Some (create_canonical_tags namespace s)
   ↔ ∀ x, x ∈ Session.tags s →
          Tag.namespace_id x = Namespace.id namespace →
          (Tag.name x ∉ missing_canonical_names namespace s)
          ∧ (Tag.public_id x ∉ missing_canonical_names namespace s))
  ∧ (run (OpCanonical namespace) s = None
     ↔ ∃ x, x ∈ Session.tags s
            ∧ Tag.namespace_id x = Namespace.id namespace
            ∧ (Tag.name x ∈ missing_canonical_names namespace s
               ∨ Tag.public_id x ∈ missing_canonical_names namespace s)).
Proof.
  assert (Hiff := table_args_create_canonical_tags namespace s Hargs).
  unfold run, apply_op, flush.
  destruct (decide (table_args
                      (Session.tags (create_canonical_tags namespace s))))
    as [Hok | Hbad].
  - split; [tauto |]. split; [done |].
    intros (x & Hx & Hns & Hclash).
    destruct (proj1 Hiff Hok x Hx Hns). tauto.
  - split; [split; [done | tauto] |]. split; [| done]. intros _.
    destruct (decide (Exists
                        (λ x, Tag.namespace_id x = Namespace.id namespace
                              ∧ (Tag.name x
                                 ∈ missing_canonical_names namespace s
                                 ∨ Tag.public_id x
                                   ∈ missing_canonical_names namespace s))
                        (Session.tags s))) as [Hclash | Hnone].
    + by apply Exists_exists in Hclash.
    + exfalso. apply Hbad, Hiff. intros x Hx Hns.
      split; intros Hin; apply Hnone, Exists_exists; exists x; tauto.
Qed.

Lemma create_canonical_tags_accepted_iff_witness :
  run (OpCanonical ns1) session_user_spam = None
  ↔ ∃ x, x ∈ Session.tags session_user_spam
         ∧ Tag.namespace_id x = 1
         ∧ (Tag.name x ∈ missing_canonical_names ns1 session_user_spam
            ∨ Tag.public_id x
              ∈ missing_canonical_names ns1 session_user_spam).
Proof.
  apply (create_canonical_tags_accepted_iff ns1 session_user_spam).
  decide_closed.
Defined.

(** ** Namespaces do not interfere *)

Lemma filter_app_none {A : Type} (P : A → Prop) `{∀ x, Decision (P x)}
    (old new : list A) :
  Forall (λ x, ¬ P x) new → filter P (old ++ new) = filter P old.
Proof.
  intros Hnone. rewrite filter_app.
  assert (Hnil : filter P new = []).
  { induction Hnone as [| x new Hx _ IH]; [done |].
    by rewrite filter_cons_False. }
  by rewrite Hnil, app_nil_r.
Qed.

(** Provisioning one namespace leaves every other namespace as it was:
    the rows of the other namespace, its [tags] collection, and the
    names available in it do not change. *)
Theorem create_canonical_tags_other_namespace (lower : string → string)
    (namespace other : Namespace.t) (s : Session.t)
    (Hother : Namespace.id other ≠ Namespace.id namespace) :
  filter (λ x, Tag.namespace_id x = Namespace.id other)
    (Session.tags (create_canonical_tags namespace s))
  = filter (λ x, Tag.namespace_id x = Namespace.id other) (Session.tags s)
  ∧ Namespace_tags other (create_canonical_tags namespace s)
    = Namespace_tags other s
  ∧ ∀ name,
      name_available lower name (Namespace.id other)
        (create_canonical_tags namespace s)
      = name_available lower name (Namespace.id other) s.
Proof.
  destruct (create_canonical_tags_rows namespace s)
    as (rows & Htags & _ & _ & Hall).
  split; [| split].
  - rewrite Htags. apply filter_app_none.
    eapply Forall_impl; [exact Hall |]. intros x [Hns _]. congruence.
  - unfold Namespace_tags. rewrite Htags. f_equal.
    apply filter_app_none.
    eapply Forall_impl; [exact Hall |]. intros x [Hns _] [? _].
    congruence.
  - intros name. rewrite !name_available_names.
    unfold namespace_names, Session.query. rewrite Htags.
    rewrite filter_app_none; [done |].
    eapply Forall_impl; [exact Hall |]. intros x [Hns _] [_ ?].
    congruence.
Qed.

Lemma create_canonical_tags_other_namespace_witness :
  filter (λ x, Tag.namespace_id x = 2)
    (Session.tags (create_canonical_tags ns1 session_two_namespaces))
  = filter (λ x, Tag.namespace_id x = 2)
      (Session.tags session_two_namespaces).
Proof.
  apply (create_canonical_tags_other_namespace ascii_fold ns1 ns2
           session_two_namespaces).
  discriminate.
Defined.

(** ** The [tags] collection of a namespace *)

Lemma foldl_insert_lookup (rows : list Tag.t) :
  ∀ (m : gmap string Tag.t) k,
    foldl (λ m x, <[Tag.public_id x := x]> m) m rows !! k
    = match last (filter (λ x, Tag.public_id x = k) rows) with
      | Some x => Some x
      | None => m !! k
      end.
Proof.
  induction rows as [| x rows IH]; intros m k; [done |].
  simpl. rewrite IH, filter_cons. case_decide as Hkey.
  - rewrite last_cons. destruct (last _); [done |].
    by rewrite <- Hkey, lookup_insert_eq.
  - destruct (last _); [done |]. by rewrite lookup_insert_ne.
Qed.

(** The entry under a key is the last active row of the namespace with
    that public id. *)
Lemma Namespace_tags_last namespace s k :
  Namespace_tags namespace s !! k
  = last (active_with_public_id (Namespace.id namespace) k
            (Session.tags s)).
Proof.
  unfold Namespace_tags. rewrite foldl_insert_lookup, lookup_empty.
  unfold active_with_public_id, rows_with_public_id.
  rewrite !list_filter_filter.
  rewrite (list_filter_iff _
             (λ x, active x
                   ∧ Tag.namespace_id x = Namespace.id namespace
                     ∧ Tag.public_id x = k))
    by (unfold active; tauto).
  by destruct (last _).
Qed.

Lemma length_le_1_last {A : Type} (l : list A) x :
  (length l ≤ 1)%nat → x ∈ l → last l = Some x.
Proof.
  destruct l as [| y [| z l]]; simpl; intros Hlen Hx.
  - by apply not_elem_of_nil in Hx.
  - by apply list_elem_of_singleton in Hx as ->.
  - lia.
Qed.

(** Where public ids are unique per namespace, [namespace.tags] maps a
    public id to a tag exactly when that tag is an active row of the
    namespace with that public id: soft-deleted tags and tags of other
    namespaces are never in the collection, and every active tag of the
    namespace is found under its public id. *)
Theorem Namespace_tags_lookup (namespace : Namespace.t) (s : Session.t)
    (public_id : string) (x : Tag.t)
    (Hunique : UniqueConstraint Tag.namespace_id Tag.public_id
                 (Session.tags s)) :
  Namespace_tags namespace s !! public_id = Some x
  ↔ x ∈ Session.tags s
    ∧ Tag.namespace_id x = Namespace.id namespace
    ∧ Tag.deleted_at x = None
    ∧ Tag.public_id x = public_id.
Proof.
  rewrite Namespace_tags_last, <- elem_of_active_with_public_id. split.
  - apply last_Some_elem_of.
  - apply length_le_1_last.
    unfold active_with_public_id.
    etrans; [apply length_filter |].
    by apply rows_with_public_id_unique.
Qed.

Lemma Namespace_tags_lookup_witness :
  Namespace_tags ns1 session_with_items !! "starred" = Some starred_tag
  ↔ starred_tag ∈ Session.tags session_with_items
    ∧ Tag.namespace_id starred_tag = 1
    ∧ Tag.deleted_at starred_tag = None
    ∧ Tag.public_id starred_tag = "starred".
Proof.
  apply (Namespace_tags_lookup ns1 session_with_items "starred" starred_tag).
  unfold UniqueConstraint. decide_closed.
Defined.

(** After [create_canonical_tags] the collection [namespace.tags] has
    an entry under every canonical name, and it is an active tag of the
    namespace with that public id. *)
Theorem Namespace_tags_canonical_present (namespace : Namespace.t)
    (s : Session.t) (c : string)
    (Hcanonical : c ∈ Tag.CANONICAL_TAG_NAMES) :
  ∃ x, Namespace_tags namespace (create_canonical_tags namespace s) !! c
       = Some x
       ∧ x ∈ Session.tags (create_canonical_tags namespace s)
       ∧ Tag.namespace_id x = Namespace.id namespace
       ∧ Tag.deleted_at x = None
       ∧ Tag.public_id x = c.
Proof.
  rewrite Namespace_tags_last.
  destruct (create_canonical_tags_covers namespace s c Hcanonical)
    as (y & Hy & Hyact & Hyns & Hypid).
  assert (Hin : y ∈ active_with_public_id (Namespace.id namespace) c
                      (Session.tags (create_canonical_tags namespace s)))
    by (by apply elem_of_active_with_public_id).
  destruct (last _) as [x |] eqn:Hlast.
  - exists x. split; [done |].
    apply last_Some_elem_of in Hlast.
    by apply elem_of_active_with_public_id in Hlast.
  - apply last_None in Hlast. rewrite Hlast in Hin.
    by apply not_elem_of_nil in Hin.
Qed.

Lemma Namespace_tags_canonical_present_witness :
  ∃ x, Namespace_tags ns1 (create_canonical_tags ns1 session_deleted_inbox)
         !! "inbox" = Some x
       ∧ x ∈ Session.tags (create_canonical_tags ns1 session_deleted_inbox)
       ∧ Tag.namespace_id x = 1
       ∧ Tag.deleted_at x = None
       ∧ Tag.public_id x = "inbox".
Proof.
  apply (Namespace_tags_canonical_present ns1 session_deleted_inbox "inbox").
  decide_closed.
Defined.

(** ** Provisioning and the availability of names *)

(** Provisioning the canonical tags changes the answer of
    [name_available] for no name in no namespace: the names it inserts
    are canonical names, which the check rejects before it reads the
    store. *)
Theorem name_available_after_create_canonical_tags
    (lower : string → string) (namespace : Namespace.t)
    (s : Session.t) (name : string) (ns' : Z) :
  name_available lower name ns' (create_canonical_tags namespace s)
  = name_available lower name ns' s.
Proof.
  rewrite !name_available_names.
  destruct (bool_decide (name ∈ Tag.CANONICAL_TAG_NAMES)) eqn:Hcan.
  { by rewrite orb_true_r, !andb_false_r. }
  apply bool_decide_eq_false in Hcan.
  assert (Hiff : name ∈ namespace_names ns'
                          (create_canonical_tags namespace s)
                 ↔ name ∈ namespace_names ns' s).
  { rewrite !elem_of_namespace_names.
    destruct (create_canonical_tags_rows namespace s)
      as (rows & -> & _ & Hnames & _).
    split; intros (x & Hx & Hact & Hns & Hname); exists x.
    - split; [| done]. apply elem_of_app in Hx as [Hold | Hnew]; [done |].
      exfalso. apply Hcan.
      assert (Hin : name ∈ Tag.name <$> rows)
        by (rewrite <- Hname; by apply list_elem_of_fmap_2).
      rewrite Hnames in Hin.
      by apply elem_of_elements, missing_canonical_names_spec in Hin
        as [? _].
    - split; [| done]. apply elem_of_app. by left. }
  by rewrite (bool_decide_ext _ _ Hiff).
Qed.

(** If every tag row of the namespace that has a canonical name or a
    canonical public id is the active canonical tag itself (active,
    with that name as its public id), then the flush after
    [create_canonical_tags] is accepted. *)
Theorem create_canonical_tags_accepted (namespace : Namespace.t)
    (s : Session.t)
    (Hargs : table_args (Session.tags s))
    (Hnames : ∀ x, x ∈ Session.tags s →
                   Tag.namespace_id x = Namespace.id namespace →
                   Tag.name x ∈ Tag.CANONICAL_TAG_NAMES
                   ∨ Tag.public_id x ∈ Tag.CANONICAL_TAG_NAMES →
                   Tag.deleted_at x = None
                   ∧ Tag.public_id x = Tag.name x) :
  run (OpCanonical namespace) s = Some (create_canonical_tags namespace s).
Proof.
  unfold run, apply_op, flush. rewrite decide_True; [done |].
  apply table_args_create_canonical_tags; [done |].
  intros x Hx Hns.
  split; intros [Hcan Hfree]%missing_canonical_names_spec.
  - destruct (Hnames x Hx Hns) as [Hact Hpid]; [by left |].
    by apply (Hfree x).
  - destruct (Hnames x Hx Hns) as [Hact Hpid]; [by right |].
    by apply (Hfree x).
Qed.

Lemma create_canonical_tags_accepted_witness :
  run (OpCanonical ns1) session_with_items
  = Some (create_canonical_tags ns1 session_with_items).
Proof.
  apply (create_canonical_tags_accepted ns1 session_with_items).
  - decide_closed.
  - intros x Hx _ _.
    apply elem_of_cons in Hx as [-> | Hx]; [done |].
    by apply list_elem_of_singleton in Hx as ->.
Defined.

(** Once a provisioning step was committed, provisioning the same
    namespace again is accepted too and commits the same store. *)
Theorem run_canonical_twice (namespace : Namespace.t) (s s' : Session.t)
    (Hfirst : run (OpCanonical namespace) s = Some s') :
  run (OpCanonical namespace) s' = Some s'.
Proof.
  unfold run, apply_op in *.
  apply flush_Some in Hfirst as [-> Hargs].
  rewrite (create_canonical_tags_loop namespace
             (create_canonical_tags namespace s)).
  rewrite create_canonical_tags_nothing_missing, elements_empty.
  unfold add_canonical_tags, flush. simpl. by rewrite decide_True.
Qed.

Lemma run_canonical_twice_witness :
  run (OpCanonical ns1) (create_canonical_tags ns1 session_with_items)
  = Some (create_canonical_tags ns1 session_with_items).
Proof.
  apply (run_canonical_twice ns1 session_with_items). reflexivity.
Defined.

(** ** The [tags] collection under inserts and soft deletes *)

(** A created tag is found in the [tags] collection of its namespace
    under its public id, with the primary key the store assigned; the
    other entries of that collection, and the collections of all other
    namespaces, are as before. *)
Theorem Namespace_tags_after_create (namespace other : Namespace.t)
    (public_id name : string) (user_created : bool) (s : Session.t) :
  Namespace_tags other (create namespace public_id name user_created s)
  = if decide (Namespace.id namespace = Namespace.id other)
    then <[public_id :=
             {| Tag.id := Session.next_id (Session.tags s);
                Tag.public_id := public_id; Tag.name := name;
                Tag.namespace_id := Namespace.id namespace;
                Tag.user_created := user_created;
                Tag.deleted_at := None |}]>
           (Namespace_tags other s)
    else Namespace_tags other s.
Proof.
  unfold Namespace_tags, create, Session.add. simpl.
  rewrite filter_app, filter_cons. simpl.
  destruct (decide (Namespace.id namespace = Namespace.id other))
    as [Heq | Hne].
  - rewrite decide_True by done. by rewrite foldl_app.
  - rewrite decide_False by (by intros [? _]).
    by rewrite filter_nil, app_nil_r.
Qed.

(** Soft-deleted tags leave the [tags] collection: after any rows were
    soft-deleted, every entry of the collection is a row that was not
    selected, unchanged. *)
Theorem Namespace_tags_after_soft_delete (P : Tag.t → Prop)
    `{∀ x, Decision (P x)} (now : Z) (namespace : Namespace.t)
    (rows : list Tag.t) (items : list TagItem.t) (k : string) (x : Tag.t)
    (Hentry : Namespace_tags namespace
                {| Session.tags := soft_delete_where P now rows;
                   Session.tagitems := items |} !! k = Some x) :
  x ∈ rows ∧ ¬ P x
  ∧ Namespace_tags namespace
      {| Session.tags := rows; Session.tagitems := items |} !! k
    ≠ None.
Proof.
  rewrite Namespace_tags_last in Hentry.
  apply last_Some_elem_of, elem_of_active_with_public_id in Hentry
    as (Hx & Hns & Hactive & Hpid). simpl in Hx.
  apply list_elem_of_fmap in Hx as (y & Hy & Hin).
  destruct (decide (P y)) as [Hsel | Hnot]; [by subst x |].
  subst y. split; [done |]. split; [done |].
  rewrite Namespace_tags_last. intros Hnone. apply last_None in Hnone.
  assert (Hmem : x ∈ active_with_public_id (Namespace.id namespace) k rows)
    by (by apply elem_of_active_with_public_id).
  simpl in Hnone. rewrite Hnone in Hmem. by apply not_elem_of_nil in Hmem.
Qed.

Lemma Namespace_tags_after_soft_delete_witness :
  unseen_tag ∈ [starred_tag; unseen_tag]
  ∧ ¬ Tag.id unseen_tag = 7
  ∧ Namespace_tags ns1
      {| Session.tags := [starred_tag; unseen_tag];
         Session.tagitems := [] |} !! "unseen"
    ≠ None.
Proof.
  apply (Namespace_tags_after_soft_delete (λ x, Tag.id x = 7) 1400000000
           ns1 [starred_tag; unseen_tag] [] "unseen" unseen_tag).
  vm_compute. reflexivity.
Defined.
